(** * Lobby state store of flo ([crates/lobby/src/state.rs])

    Shallow embedding of the concurrent in-memory store.  The coarse index
    ([StorageState]) maps ids to shared handles [Arc<Mutex<_>>]; a handle is
    modelled as a location [loc] into one of two heaps of cells, so that a
    record replaced in the index but still held by a guard (aliasing through
    the [Arc]) stays observable.  Calls are sequentialised: each operation is
    a function from the world before the call to the world after it. *)

From Stdlib Require Import ZArith Lia.
From stdpp Require Import base gmap list.

Open Scope Z_scope.

(** Locations of [Arc<Mutex<_>>] cells. *)
Definition loc := N.

(** [usize] arithmetic.  Rust's [+] and [-] on [usize] wrap in release
    builds (they panic when overflow checks are enabled); modelled here with
    the wrap-around written out. *)
Definition usize_modulus : Z := 2 ^ 64.
Definition usize_add (a b : Z) : Z := (a + b) mod usize_modulus.
Definition usize_sub (a b : Z) : Z := (a - b) mod usize_modulus.
Definition usize_of_len {A} (l : list A) : Z := Z.of_nat (length l).

(** [num as i32] on a [usize]: truncation to the low 32 bits, signed. *)
Definition usize_as_i32 (v : Z) : Z :=
  let m := v mod 2 ^ 32 in if m >=? 2 ^ 31 then m - 2 ^ 32 else m.

(** [NotificationSender] is opaque to the store: only stored, never used. *)
Definition NotificationSender := nat.

Module GameState.
(** [struct GameState { players: Vec<i32>, closed: bool }] *)
Record t := mk { players : list Z; closed : bool }.
(** [GameState::new(players)]: copies the slice, [closed: false]. *)
Definition new (ps : list Z) : t := mk ps false.
End GameState.

Module PlayerState.
(** [struct PlayerState { game_id: Option<i32>, sender: Option<_> }] *)
Record t := mk { game_id : option Z; sender : option NotificationSender }.
(** [#[derive(Default)]] *)
Definition default : t := mk None None.
End PlayerState.

Module GameStateFromDb.
(** Seed row supplied by the database collaborator. *)
Record t := mk { id : Z; players : list Z }.
End GameStateFromDb.

Module GameEntry.
(** Game summary whose [num_players] is filled by [fetch_num_players]. *)
Record t := mk { id : Z; num_players : Z }.
End GameEntry.

Module StorageState.
(** [struct StorageState]: the coarse index. *)
Record t := mk {
  players : gmap Z loc;
  games : gmap Z loc;
  game_num_players : gmap Z Z
}.
End StorageState.

(** The whole store: the index behind the [RwLock] and the heaps holding
    the cells the index (and the guards) point to. *)
Record World := mkWorld {
  state : StorageState.t;
  player_cells : gmap loc PlayerState.t;
  game_cells : gmap loc GameState.t;
  next_loc : loc
}.

Definition set_state (w : World) (s : StorageState.t) : World :=
  mkWorld s (player_cells w) (game_cells w) (next_loc w).

Definition set_players (w : World) (m : gmap Z loc) : World :=
  set_state w (StorageState.mk m (StorageState.games (state w))
                 (StorageState.game_num_players (state w))).

Definition set_games (w : World) (m : gmap Z loc) : World :=
  set_state w (StorageState.mk (StorageState.players (state w)) m
                 (StorageState.game_num_players (state w))).

Definition set_game_num_players (w : World) (m : gmap Z Z) : World :=
  set_state w (StorageState.mk (StorageState.players (state w))
                 (StorageState.games (state w)) m).

(** [Arc::new(Mutex::new(v))] *)
Definition alloc_player (w : World) (v : PlayerState.t) : World * loc :=
  (mkWorld (state w) (<[next_loc w := v]> (player_cells w)) (game_cells w)
     (N.succ (next_loc w)), next_loc w).

Definition alloc_game (w : World) (v : GameState.t) : World * loc :=
  (mkWorld (state w) (player_cells w) (<[next_loc w := v]> (game_cells w))
     (N.succ (next_loc w)), next_loc w).

(** Writing through a held [MutexGuard] at location [l]. *)
Definition write_game (w : World) (l : loc) (v : GameState.t) : World :=
  mkWorld (state w) (player_cells w) (<[l := v]> (game_cells w)) (next_loc w).

Definition write_player (w : World) (l : loc) (v : PlayerState.t) : World :=
  mkWorld (state w) (<[l := v]> (player_cells w)) (game_cells w) (next_loc w).

Definition empty_world : World :=
  mkWorld (StorageState.mk ∅ ∅ ∅) ∅ ∅ 0%N.

(** The inner loop of [StorageState::new]:
    [for player_id in &item.players { players.insert(player_id, Arc::new(..)) }] *)
Fixpoint insert_seed_players (gid : Z) (ps : list Z) (w : World) : World :=
  match ps with
  | [] => w
  | p :: ps' =>
      let '(w1, l) := alloc_player w (PlayerState.mk (Some gid) None) in
      insert_seed_players gid ps'
        (set_players w1 (<[p := l]> (StorageState.players (state w1))))
  end.

(** One iteration of the outer loop of [StorageState::new]. *)
Definition insert_seed_item (w : World) (item : GameStateFromDb.t) : World :=
  let gid := GameStateFromDb.id item in
  let ps := GameStateFromDb.players item in
  let w1 := insert_seed_players gid ps w in
  let w2 := set_game_num_players w1
              (<[gid := usize_of_len ps]> (StorageState.game_num_players (state w1))) in
  let '(w3, l) := alloc_game w2 (GameState.mk ps false) in
  set_games w3 (<[gid := l]> (StorageState.games (state w3))).

(** [StorageState::new(data)], wrapped by [Storage::init]. *)
Definition storage_state_new (data : list GameStateFromDb.t) : World :=
  fold_left insert_seed_item data empty_world.

Module LockedPlayerState.
(** [struct LockedPlayerState { id, guard }]: [guard] is the cell held. *)
Record t := mk { id : Z; guard : loc }.

Definition joined_game_id (w : World) (g : t) : option Z :=
  player_cells w !! guard g ≫= PlayerState.game_id.

Definition join_game (w : World) (g : t) (game_id : Z) : World :=
  match player_cells w !! guard g with
  | Some ps => write_player w (guard g)
                 (PlayerState.mk (Some game_id) (PlayerState.sender ps))
  | None => w
  end.

Definition leave_game (w : World) (g : t) : World :=
  match player_cells w !! guard g with
  | Some ps => write_player w (guard g) (PlayerState.mk None (PlayerState.sender ps))
  | None => w
  end.
End LockedPlayerState.

(** [Vec::contains] *)
Definition vec_contains (v : list Z) (x : Z) : bool := existsb (Z.eqb x) v.

Module LockedGameState.
(** [struct LockedGameState { id, guard, storage_state }]; the shared
    [storage_state] is the world threaded through every call. *)
Record t := mk { id : Z; guard : loc }.

Definition players (w : World) (g : t) : option (list Z) :=
  GameState.players <$> game_cells w !! guard g.

Definition has_player (w : World) (g : t) (player_id : Z) : bool :=
  match game_cells w !! guard g with
  | Some gs => vec_contains (GameState.players gs) player_id
  | None => false
  end.

Definition add_player (w : World) (g : t) (player_id : Z) : World :=
  match game_cells w !! guard g with
  | Some gs =>
      if negb (vec_contains (GameState.players gs) player_id) then
        let w1 := write_game w (guard g)
                    (GameState.mk (GameState.players gs ++ [player_id])
                       (GameState.closed gs)) in
        set_game_num_players w1
          (alter (fun v => usize_add v 1) (id g)
             (StorageState.game_num_players (state w1)))
      else w
  | None => w
  end.

Definition remove_player (w : World) (g : t) (player_id : Z) : World :=
  match game_cells w !! guard g with
  | Some gs =>
      let w1 := write_game w (guard g)
                  (GameState.mk
                     (List.filter (fun x => negb (x =? player_id)) (GameState.players gs))
                     (GameState.closed gs)) in
      set_game_num_players w1
        (alter (fun v => usize_sub v 1) (id g)
           (StorageState.game_num_players (state w1)))
  | None => w
  end.

Definition close (w : World) (g : t) : World :=
  match game_cells w !! guard g with
  | Some gs => write_game w (guard g) (GameState.mk (GameState.players gs) true)
  | None => w
  end.
End LockedGameState.

Module StorageHandle.
Definition register_game (w : World) (id : Z) (players : list Z) : World :=
  let w1 := set_game_num_players w
              (<[id := usize_of_len players]> (StorageState.game_num_players (state w))) in
  let '(w2, l) := alloc_game w1 (GameState.new players) in
  set_games w2 (<[id := l]> (StorageState.games (state w2))).

Definition lock_player_state (w : World) (id : Z) : World * LockedPlayerState.t :=
  match StorageState.players (state w) !! id with
  | Some l => (w, LockedPlayerState.mk id l)
  | None =>
      let '(w1, l) := alloc_player w PlayerState.default in
      (set_players w1 (<[id := l]> (StorageState.players (state w1))),
       LockedPlayerState.mk id l)
  end.

(** Both phases in one step: look the handle up, then (after the lock is
    acquired) test [closed]; a closed record is purged from [games]. *)
Definition lock_game_state (w : World) (id : Z) : World * option LockedGameState.t :=
  match StorageState.games (state w) !! id with
  | Some l =>
      match game_cells w !! l with
      | Some gs =>
          if GameState.closed gs then
            (set_games w (delete id (StorageState.games (state w))), None)
          else (w, Some (LockedGameState.mk id l))
      | None => (w, None) (* no live cell: excluded by [world_wf] *)
      end
  | None => (w, None)
  end.

Definition fetch_num_players (w : World) (games : list GameEntry.t) : list GameEntry.t :=
  map (fun game =>
         match StorageState.game_num_players (state w) !! GameEntry.id game with
         | Some num => GameEntry.mk (GameEntry.id game) (usize_as_i32 num)
         | None => game
         end) games.
End StorageHandle.

(** The cached count of a game, as [fetch_num_players] reads it. *)
Definition read_count (w : World) (id : Z) : option Z :=
  StorageState.game_num_players (state w) !! id.

(** [has_player] on the guard [lock_game_state] hands out, [None] when the
    lease reports "not found". *)
Definition game_has_member (w : World) (id player_id : Z) : option bool :=
  let '(w1, og) := StorageHandle.lock_game_state w id in
  (fun g => LockedGameState.has_player w1 g player_id) <$> og.

(** Well-formedness of the heaps: every cell lies below the allocation
    pointer and every handle in the index points to a live cell (as an
    [Arc] does). *)
Record world_wf (w : World) : Prop := {
  wf_player_cells : ∀ l, is_Some (player_cells w !! l) → (l < next_loc w)%N;
  wf_game_cells : ∀ l, is_Some (game_cells w !! l) → (l < next_loc w)%N;
  wf_players : ∀ k l, StorageState.players (state w) !! k = Some l →
                      is_Some (player_cells w !! l);
  wf_games : ∀ k l, StorageState.games (state w) !! k = Some l →
                    is_Some (game_cells w !! l)
}.

(** * Well-formedness is preserved *)

Lemma fresh_player_cell (w : World) :
  world_wf w → player_cells w !! next_loc w = None.
Proof.
  intros Hwf. destruct (player_cells w !! next_loc w) eqn:E; [|done].
  exfalso. pose proof (wf_player_cells w Hwf (next_loc w) ltac:(by eexists)). lia.
Qed.

Lemma fresh_game_cell (w : World) :
  world_wf w → game_cells w !! next_loc w = None.
Proof.
  intros Hwf. destruct (game_cells w !! next_loc w) eqn:E; [|done].
  exfalso. pose proof (wf_game_cells w Hwf (next_loc w) ltac:(by eexists)). lia.
Qed.

Lemma empty_world_wf : world_wf empty_world.
Proof.
  split; simpl; intros * H; rewrite lookup_empty in H;
    first [discriminate | destruct H as [? H']; discriminate].
Qed.

Ltac wf_case :=
  rewrite ?lookup_insert in *; repeat case_decide; subst.

Ltac wf_close H :=
  first [by eexists | by eapply H | congruence | lia].

Lemma register_game_wf (w : World) id ps :
  world_wf w → world_wf (StorageHandle.register_game w id ps).
Proof.
  intros [H1 H2 H3 H4].
  unfold StorageHandle.register_game, set_games, set_game_num_players, set_state.
  split; simpl.
  - intros l Hl. specialize (H1 l Hl). lia.
  - intros l Hl. wf_case; [lia|]. specialize (H2 l Hl). lia.
  - intros k l Hk. by eapply H3.
  - intros k l Hk. wf_case; wf_close H4.
Qed.

Lemma lock_player_state_wf (w : World) id :
  world_wf w → world_wf (StorageHandle.lock_player_state w id).1.
Proof.
  intros [H1 H2 H3 H4]. unfold StorageHandle.lock_player_state.
  destruct (StorageState.players (state w) !! id) eqn:E; [by split|].
  unfold set_players, set_state. split; simpl.
  - intros l Hl. wf_case; [lia|]. specialize (H1 l Hl). lia.
  - intros l Hl. specialize (H2 l Hl). lia.
  - intros k l Hk. wf_case; wf_close H3.
  - intros k l Hk. by eapply H4.
Qed.

Lemma set_game_num_players_wf (w : World) m :
  world_wf w → world_wf (set_game_num_players w m).
Proof. intros [H1 H2 H3 H4]. by split. Qed.

Lemma write_game_wf (w : World) l v :
  world_wf w → is_Some (game_cells w !! l) → world_wf (write_game w l v).
Proof.
  intros [H1 H2 H3 H4] Hl. unfold write_game. split; simpl.
  - done.
  - intros l' Hl'. wf_case; [by apply H2|]. by apply H2.
  - done.
  - intros k l' Hk. wf_case; wf_close H4.
Qed.

Lemma lock_game_state_wf (w : World) id :
  world_wf w → world_wf (StorageHandle.lock_game_state w id).1.
Proof.
  intros Hwf. unfold StorageHandle.lock_game_state.
  destruct (StorageState.games (state w) !! id) as [l|]; [|done].
  destruct (game_cells w !! l) as [gs|]; [|done].
  destruct (GameState.closed gs); [|done].
  destruct Hwf as [H1 H2 H3 H4]. unfold set_games, set_state. split; simpl; try done.
  intros k l' Hk. apply lookup_delete_Some in Hk as [_ Hk]. by eapply H4.
Qed.

Lemma add_player_wf (w : World) g p :
  world_wf w → world_wf (LockedGameState.add_player w g p).
Proof.
  intros Hwf. unfold LockedGameState.add_player.
  destruct (game_cells w !! LockedGameState.guard g) eqn:E; [|done].
  destruct (negb _); [|done].
  apply set_game_num_players_wf, write_game_wf; [done | by eexists].
Qed.

Lemma remove_player_wf (w : World) g p :
  world_wf w → world_wf (LockedGameState.remove_player w g p).
Proof.
  intros Hwf. unfold LockedGameState.remove_player.
  destruct (game_cells w !! LockedGameState.guard g) eqn:E; [|done].
  apply set_game_num_players_wf, write_game_wf; [done | by eexists].
Qed.

Lemma close_wf (w : World) g :
  world_wf w → world_wf (LockedGameState.close w g).
Proof.
  intros Hwf. unfold LockedGameState.close.
  destruct (game_cells w !! LockedGameState.guard g) eqn:E; [|done].
  apply write_game_wf; [done | by eexists].
Qed.

Lemma insert_seed_players_wf gid ps (w : World) :
  world_wf w → world_wf (insert_seed_players gid ps w).
Proof.
  revert w. induction ps as [|p ps IH]; intros w Hwf; simpl; [done|].
  apply IH. destruct Hwf as [H1 H2 H3 H4]. unfold set_players, set_state.
  split; simpl.
  - intros l Hl. wf_case; [lia|]. specialize (H1 l Hl). lia.
  - intros l Hl. specialize (H2 l Hl). lia.
  - intros k l Hk. wf_case; wf_close H3.
  - intros k l Hk. by eapply H4.
Qed.

Lemma insert_seed_item_wf (w : World) item :
  world_wf w → world_wf (insert_seed_item w item).
Proof.
  intros Hwf. unfold insert_seed_item.
  pose proof (set_game_num_players_wf _
    (<[GameStateFromDb.id item := usize_of_len (GameStateFromDb.players item)]>
       (StorageState.game_num_players
          (state (insert_seed_players (GameStateFromDb.id item)
                    (GameStateFromDb.players item) w))))
    (insert_seed_players_wf (GameStateFromDb.id item) (GameStateFromDb.players item) w Hwf))
    as [H1 H2 H3 H4].
  unfold set_games, set_state. split; simpl.
  - intros l Hl. specialize (H1 l Hl). simpl in H1. lia.
  - intros l Hl. wf_case; [lia|]. specialize (H2 l Hl). simpl in H2. lia.
  - intros k l Hk. by eapply H3.
  - intros k l Hk. wf_case; wf_close H4.
Qed.

Lemma storage_state_new_wf data : world_wf (storage_state_new data).
Proof.
  unfold storage_state_new.
  enough (∀ w, world_wf w → world_wf (fold_left insert_seed_item data w))
    by (apply H, empty_world_wf).
  induction data as [|item data IH]; intros w Hwf; simpl; [done|].
  by apply IH, insert_seed_item_wf.
Qed.

(** * Registration and player leases *)

(** C6: [register_game(id, players)] points [id] to a freshly allocated
    record holding exactly [players] with [closed = false] and sets the
    cached count to [players.len()], replacing any prior record; hence
    [register_game(7, [1,2])] then [register_game(7, [3])] gives
    [read_count(7) == 1] and [has_member(7, 1) == false]. *)
Theorem register_game_replaces (w : World) (id : Z) (players : list Z) :
  world_wf w →
  (∃ l, StorageState.games (state (StorageHandle.register_game w id players)) !! id = Some l ∧
        game_cells w !! l = None ∧
        game_cells (StorageHandle.register_game w id players) !! l =
          Some (GameState.new players) ∧
        GameState.closed (GameState.new players) = false ∧
        read_count (StorageHandle.register_game w id players) id = Some (usize_of_len players)) ∧
  (∀ w0 : World,
     let w2 := StorageHandle.register_game (StorageHandle.register_game w0 7 [1; 2]) 7 [3] in
     read_count w2 7 = Some 1 ∧ game_has_member w2 7 1 = Some false).
Proof.
  intros Hwf. split.
  - exists (next_loc w).
    unfold StorageHandle.register_game, set_games, set_game_num_players, set_state, read_count.
    simpl. rewrite !lookup_insert_eq. repeat split; try done. by apply fresh_game_cell.
  - intros w0. unfold game_has_member, StorageHandle.lock_game_state, read_count.
    unfold StorageHandle.register_game, set_games, set_game_num_players, set_state, alloc_game.
    cbn. rewrite !lookup_insert_eq. cbn. unfold LockedGameState.has_player. cbn.
    rewrite lookup_insert_eq. split; reflexivity.
Qed.

Lemma register_game_replaces_witness :
  world_wf empty_world ∧
  ((∃ l, StorageState.games (state (StorageHandle.register_game empty_world 7 [1; 2])) !! 7 = Some l ∧
         game_cells empty_world !! l = None ∧
         game_cells (StorageHandle.register_game empty_world 7 [1; 2]) !! l =
           Some (GameState.new [1; 2]) ∧
         GameState.closed (GameState.new [1; 2]) = false ∧
         read_count (StorageHandle.register_game empty_world 7 [1; 2]) 7 = Some 2) ∧
   (∀ w0 : World,
      let w2 := StorageHandle.register_game (StorageHandle.register_game w0 7 [1; 2]) 7 [3] in
      read_count w2 7 = Some 1 ∧ game_has_member w2 7 1 = Some false)).
Proof.
  split; [apply empty_world_wf|].
  apply (register_game_replaces empty_world 7 [1; 2]). apply empty_world_wf.
Defined.

(** C8: [lock_player_state(id)] is total: it returns a guard on the cell the
    index now holds for [id], which is live; if the index had no entry, the
    cell is a fresh default record (no game, no sender); earlier entries
    are kept and the store stays well formed. *)
Theorem lock_player_state_total (w : World) (id : Z) :
  world_wf w →
  let '(w', g) := StorageHandle.lock_player_state w id in
  LockedPlayerState.id g = id ∧
  StorageState.players (state w') !! id = Some (LockedPlayerState.guard g) ∧
  is_Some (player_cells w' !! LockedPlayerState.guard g) ∧
  (StorageState.players (state w) !! id = None →
     player_cells w' !! LockedPlayerState.guard g = Some PlayerState.default) ∧
  (∀ k l, StorageState.players (state w) !! k = Some l →
     StorageState.players (state w') !! k = Some l ∧
     player_cells w' !! l = player_cells w !! l) ∧
  world_wf w'.
Proof.
  intros Hwf. pose proof (lock_player_state_wf w id Hwf) as Hwf'.
  revert Hwf'. unfold StorageHandle.lock_player_state.
  destruct (StorageState.players (state w) !! id) as [l|] eqn:E; intros Hwf'.
  - simpl. split_and!; try done. by eapply wf_players.
  - unfold set_players, set_state in *. simpl in *.
    rewrite !lookup_insert_eq. split_and!; try done.
    + intros k l Hk. rewrite lookup_insert_ne by congruence. split; [done|].
      rewrite lookup_insert_ne; [done|].
      intros <-. pose proof (wf_player_cells w Hwf (next_loc w)
                               (wf_players w Hwf k _ Hk)). lia.
Qed.

Lemma lock_player_state_effect (w : World) (id : Z) :
  world_wf w →
  let '(w', g) := StorageHandle.lock_player_state w id in
  LockedPlayerState.id g = id ∧
  StorageState.players (state w') !! id = Some (LockedPlayerState.guard g) ∧
  is_Some (player_cells w' !! LockedPlayerState.guard g) ∧
  (StorageState.players (state w) !! id = None →
     player_cells w' !! LockedPlayerState.guard g = Some PlayerState.default) ∧
  (∀ k l, StorageState.players (state w) !! k = Some l →
     StorageState.players (state w') !! k = Some l ∧
     player_cells w' !! l = player_cells w !! l) ∧
  world_wf w'.
Proof.
  intros Hwf. pose proof (lock_player_state_wf w id Hwf) as Hwf'.
  revert Hwf'. unfold StorageHandle.lock_player_state.
  destruct (StorageState.players (state w) !! id) as [l|] eqn:E; intros Hwf'.
  - simpl. split_and!; try done. by eapply wf_players.
  - unfold set_players, set_state in *. simpl in *.
    rewrite !lookup_insert_eq. split_and!; try done.
    + intros k l Hk. rewrite lookup_insert_ne by congruence. split; [done|].
      rewrite lookup_insert_ne; [done|].
      intros <-. pose proof (wf_player_cells w Hwf (next_loc w)
                               (wf_players w Hwf k _ Hk)). lia.
Qed.

Lemma lock_player_state_total_witness :
  world_wf empty_world ∧
  (let '(w', g) := StorageHandle.lock_player_state empty_world 1 in
   LockedPlayerState.id g = 1 ∧
   StorageState.players (state w') !! 1 = Some (LockedPlayerState.guard g) ∧
   is_Some (player_cells w' !! LockedPlayerState.guard g) ∧
   (StorageState.players (state empty_world) !! 1 = None →
      player_cells w' !! LockedPlayerState.guard g = Some PlayerState.default) ∧
   (∀ k l, StorageState.players (state empty_world) !! k = Some l →
      StorageState.players (state w') !! k = Some l ∧
      player_cells w' !! l = player_cells empty_world !! l) ∧
   world_wf w').
Proof.
  split; [apply empty_world_wf|].
  apply (lock_player_state_total empty_world 1). apply empty_world_wf.
Defined.

(** C10: [register_game] changes only the game table and the cached count
    of [id]: the player table and every player record are unchanged (no
    member is attached to the game), other ids keep their game handle and
    count, and every existing game record is unchanged. *)
Theorem register_game_frame (w : World) (id : Z) (players : list Z) :
  world_wf w →
  let w' := StorageHandle.register_game w id players in
  StorageState.players (state w') = StorageState.players (state w) ∧
  player_cells w' = player_cells w ∧
  (∀ k, k ≠ id →
     StorageState.games (state w') !! k = StorageState.games (state w) !! k ∧
     read_count w' k = read_count w k) ∧
  (∀ l gs, game_cells w !! l = Some gs → game_cells w' !! l = Some gs).
Proof.
  intros Hwf. unfold StorageHandle.register_game, set_games, set_game_num_players,
    set_state, read_count. simpl. split_and!; [done | done | |].
  - intros k Hk. split; by rewrite lookup_insert_ne.
  - intros l gs Hl. rewrite lookup_insert_ne; [done|].
    intros <-. rewrite fresh_game_cell in Hl; done.
Qed.

(** On a store seeded with game 3 holding player 1, registering game 7
    with the same player 1. *)
Lemma register_game_frame_witness :
  world_wf (storage_state_new [GameStateFromDb.mk 3 [1]]) ∧
  player_cells (storage_state_new [GameStateFromDb.mk 3 [1]]) !! 0%N = Some (PlayerState.mk (Some 3) None) ∧
  (let w' := StorageHandle.register_game (storage_state_new [GameStateFromDb.mk 3 [1]]) 7 [1; 2] in
   StorageState.players (state w') = StorageState.players (state (storage_state_new [GameStateFromDb.mk 3 [1]])) ∧
   player_cells w' = player_cells (storage_state_new [GameStateFromDb.mk 3 [1]]) ∧
   (∀ k, k ≠ 7 →
      StorageState.games (state w') !! k = StorageState.games (state (storage_state_new [GameStateFromDb.mk 3 [1]])) !! k ∧
      read_count w' k = read_count (storage_state_new [GameStateFromDb.mk 3 [1]]) k) ∧
   (∀ l gs, game_cells (storage_state_new [GameStateFromDb.mk 3 [1]]) !! l = Some gs → game_cells w' !! l = Some gs)).
Proof.
  split_and!; [apply storage_state_new_wf | reflexivity |].
  apply (register_game_frame (storage_state_new [GameStateFromDb.mk 3 [1]]) 7 [1; 2]). apply storage_state_new_wf.
Defined.

(** * Membership operations of a game guard *)

Lemma vec_contains_true (v : list Z) (x : Z) : vec_contains v x = true ↔ x ∈ v.
Proof.
  unfold vec_contains. rewrite existsb_exists, list_elem_of_In. split.
  - intros [y [Hy Heq]]. apply Z.eqb_eq in Heq. by subst.
  - intros H. exists x. split; [done | apply Z.eqb_refl].
Qed.

Lemma vec_contains_false (v : list Z) (x : Z) : vec_contains v x = false ↔ x ∉ v.
Proof. rewrite <- vec_contains_true. destruct (vec_contains v x); intuition congruence. Qed.

Lemma retain_absent (ps : list Z) (p : Z) :
  p ∉ ps → List.filter (fun x => negb (x =? p)) ps = ps.
Proof.
  induction ps as [|x ps IH]; intros Hp; simpl; [done|].
  rewrite elem_of_cons in Hp.
  destruct (Z.eqb_spec x p) as [->|]; [tauto|]. simpl. f_equal. apply IH. tauto.
Qed.

Lemma retain_removes (ps : list Z) (p : Z) :
  p ∉ List.filter (fun x => negb (x =? p)) ps.
Proof.
  rewrite list_elem_of_In, filter_In. intros [_ H].
  rewrite Z.eqb_refl in H. discriminate.
Qed.

(** C2: [remove_player(p)] retains exactly the ids different from [p], so
    [p] is gone afterwards and an absent [p] leaves the list unchanged; in
    both cases the cached count of the game is decremented ([usize]
    subtraction, which wraps below zero; see C9). *)
Theorem remove_player_spec (w : World) (g : LockedGameState.t) (p : Z)
    (gs : GameState.t) (c : Z) :
  game_cells w !! LockedGameState.guard g = Some gs →
  read_count w (LockedGameState.id g) = Some c →
  let w' := LockedGameState.remove_player w g p in
  LockedGameState.players w' g =
    Some (List.filter (fun x => negb (x =? p)) (GameState.players gs)) ∧
  LockedGameState.has_player w' g p = false ∧
  (p ∉ GameState.players gs → LockedGameState.players w' g = Some (GameState.players gs)) ∧
  read_count w' (LockedGameState.id g) = Some (usize_sub c 1) ∧
  (0 < c < usize_modulus → read_count w' (LockedGameState.id g) = Some (c - 1)).
Proof.
  intros Hgs Hc. unfold LockedGameState.remove_player, LockedGameState.players,
    LockedGameState.has_player, read_count in *.
  rewrite Hgs. unfold set_game_num_players, set_state, write_game. simpl.
  rewrite lookup_insert_eq. simpl. rewrite lookup_alter_eq, Hc. simpl.
  split_and!; try done.
  - apply vec_contains_false, retain_removes.
  - intros Hp. by rewrite retain_absent.
  - intros Hr. unfold usize_sub. f_equal. apply Z.mod_small. lia.
Qed.

Lemma remove_player_effect (w : World) (g : LockedGameState.t) (p : Z)
    (gs : GameState.t) (c : Z) :
  game_cells w !! LockedGameState.guard g = Some gs →
  read_count w (LockedGameState.id g) = Some c →
  let w' := LockedGameState.remove_player w g p in
  LockedGameState.players w' g =
    Some (List.filter (fun x => negb (x =? p)) (GameState.players gs)) ∧
  LockedGameState.has_player w' g p = false ∧
  (p ∉ GameState.players gs → LockedGameState.players w' g = Some (GameState.players gs)) ∧
  read_count w' (LockedGameState.id g) = Some (usize_sub c 1) ∧
  (0 < c < usize_modulus → read_count w' (LockedGameState.id g) = Some (c - 1)).
Proof.
  intros Hgs Hc. unfold LockedGameState.remove_player, LockedGameState.players,
    LockedGameState.has_player, read_count in *.
  rewrite Hgs. unfold set_game_num_players, set_state, write_game. simpl.
  rewrite lookup_insert_eq. simpl. rewrite lookup_alter_eq, Hc. simpl.
  split_and!; try done.
  - apply vec_contains_false, retain_removes.
  - intros Hp. by rewrite retain_absent.
  - intros Hr. unfold usize_sub. f_equal. apply Z.mod_small. lia.
Qed.

Lemma remove_player_spec_witness :
  game_cells (StorageHandle.register_game empty_world 7 [1; 2]) !! 0%N =
    Some (GameState.new [1; 2]) ∧
  read_count (StorageHandle.register_game empty_world 7 [1; 2]) 7 = Some 2 ∧
  (let w' := LockedGameState.remove_player (StorageHandle.register_game empty_world 7 [1; 2])
               (LockedGameState.mk 7 0%N) 1 in
   LockedGameState.players w' (LockedGameState.mk 7 0%N) =
     Some (List.filter (fun x => negb (x =? 1)) [1; 2]) ∧
   LockedGameState.has_player w' (LockedGameState.mk 7 0%N) 1 = false ∧
   (1 ∉ [1; 2] → LockedGameState.players w' (LockedGameState.mk 7 0%N) = Some [1; 2]) ∧
   read_count w' 7 = Some (usize_sub 2 1) ∧
   (0 < 2 < usize_modulus → read_count w' 7 = Some (2 - 1))).
Proof.
  split; [reflexivity|]. split; [reflexivity|].
  apply (remove_player_spec (StorageHandle.register_game empty_world 7 [1; 2])
           (LockedGameState.mk 7 0%N) 1 (GameState.new [1; 2]) 2); reflexivity.
Defined.

Lemma add_player_present (w : World) (g : LockedGameState.t) (p : Z) gs :
  game_cells w !! LockedGameState.guard g = Some gs →
  p ∈ GameState.players gs → LockedGameState.add_player w g p = w.
Proof.
  intros Hgs Hp. unfold LockedGameState.add_player. rewrite Hgs.
  apply vec_contains_true in Hp. by rewrite Hp.
Qed.

Lemma add_player_absent_cell (w : World) (g : LockedGameState.t) (p : Z) gs :
  game_cells w !! LockedGameState.guard g = Some gs →
  p ∉ GameState.players gs →
  game_cells (LockedGameState.add_player w g p) !! LockedGameState.guard g =
    Some (GameState.mk (GameState.players gs ++ [p]) (GameState.closed gs)) ∧
  read_count (LockedGameState.add_player w g p) (LockedGameState.id g) =
    (fun v => usize_add v 1) <$> read_count w (LockedGameState.id g).
Proof.
  intros Hgs Hp. unfold LockedGameState.add_player. rewrite Hgs.
  apply vec_contains_false in Hp. rewrite Hp. simpl.
  unfold read_count. simpl. by rewrite lookup_insert_eq, lookup_alter_eq.
Qed.

(** C4 (as amended): [add_player(p)] is a no-op when [p] is present and
    otherwise appends [p] and increments the cached count; a second call in
    a row changes nothing, [p] is then present, and it occurs exactly once
    when it occurred at most once before the first call. *)
Theorem add_player_idempotent (w : World) (g : LockedGameState.t) (p : Z)
    (gs : GameState.t) :
  game_cells w !! LockedGameState.guard g = Some gs →
  (p ∈ GameState.players gs → LockedGameState.add_player w g p = w) ∧
  (p ∉ GameState.players gs →
     LockedGameState.players (LockedGameState.add_player w g p) g =
       Some (GameState.players gs ++ [p]) ∧
     read_count (LockedGameState.add_player w g p) (LockedGameState.id g) =
       (fun v => usize_add v 1) <$> read_count w (LockedGameState.id g)) ∧
  LockedGameState.add_player (LockedGameState.add_player w g p) g p =
    LockedGameState.add_player w g p ∧
  (∃ ys, LockedGameState.players
           (LockedGameState.add_player (LockedGameState.add_player w g p) g p) g = Some ys ∧
         p ∈ ys ∧
         (count_occ Z.eq_dec (GameState.players gs) p ≤ 1 →
            count_occ Z.eq_dec ys p = 1)%nat).
Proof.
  intros Hgs. destruct (decide (p ∈ GameState.players gs)) as [Hp|Hp].
  - rewrite !(add_player_present w g p gs Hgs Hp).
    split_and!; [done | done | done |].
    exists (GameState.players gs). unfold LockedGameState.players. rewrite Hgs.
    split_and!; [done | done |]. intros Hle.
    apply list_elem_of_In, (count_occ_In Z.eq_dec) in Hp. lia.
  - destruct (add_player_absent_cell w g p gs Hgs Hp) as [Hc Hn].
    assert (Hp' : p ∈ GameState.players gs ++ [p]) by (apply elem_of_app; right; by left).
    rewrite (add_player_present _ g p _ Hc Hp').
    unfold LockedGameState.players. rewrite Hc.
    split_and!; [done | done | done |].
    exists (GameState.players gs ++ [p]). split_and!; [done | done |]. intros _.
    assert (H0 : count_occ Z.eq_dec (GameState.players gs) p = 0%nat)
      by (apply count_occ_not_In; by rewrite <- list_elem_of_In).
    rewrite count_occ_app, H0. simpl. destruct (Z.eq_dec p p); [lia | done].
Qed.

Lemma add_player_idempotent_witness :
  game_cells (StorageHandle.register_game empty_world 7 [1; 2]) !! 0%N =
    Some (GameState.new [1; 2]) ∧
  ((3 ∈ [1; 2] → LockedGameState.add_player (StorageHandle.register_game empty_world 7 [1; 2])
                   (LockedGameState.mk 7 0%N) 3 = StorageHandle.register_game empty_world 7 [1; 2]) ∧
   (3 ∉ [1; 2] →
      LockedGameState.players
        (LockedGameState.add_player (StorageHandle.register_game empty_world 7 [1; 2])
           (LockedGameState.mk 7 0%N) 3) (LockedGameState.mk 7 0%N) = Some ([1; 2] ++ [3]) ∧
      read_count (LockedGameState.add_player (StorageHandle.register_game empty_world 7 [1; 2])
                    (LockedGameState.mk 7 0%N) 3) 7 =
        (fun v => usize_add v 1) <$> read_count (StorageHandle.register_game empty_world 7 [1; 2]) 7) ∧
   LockedGameState.add_player
     (LockedGameState.add_player (StorageHandle.register_game empty_world 7 [1; 2])
        (LockedGameState.mk 7 0%N) 3) (LockedGameState.mk 7 0%N) 3 =
   LockedGameState.add_player (StorageHandle.register_game empty_world 7 [1; 2])
     (LockedGameState.mk 7 0%N) 3 ∧
   (∃ ys, LockedGameState.players
            (LockedGameState.add_player
               (LockedGameState.add_player (StorageHandle.register_game empty_world 7 [1; 2])
                  (LockedGameState.mk 7 0%N) 3) (LockedGameState.mk 7 0%N) 3)
            (LockedGameState.mk 7 0%N) = Some ys ∧
          3 ∈ ys ∧
          (count_occ Z.eq_dec [1%Z; 2%Z] 3%Z ≤ 1 → count_occ Z.eq_dec ys 3%Z = 1)%nat)).
Proof.
  split; [reflexivity|].
  apply (add_player_idempotent (StorageHandle.register_game empty_world 7 [1; 2])
           (LockedGameState.mk 7 0%N) 3 (GameState.new [1; 2])). reflexivity.
Defined.

(** C4 fails as stated: [register_game] copies a list with a repeated id,
    and two [add_player(5)] calls then leave [5] in the members twice. *)
Lemma add_player_twice_keeps_duplicate :
  let w := StorageHandle.register_game empty_world 1 [5; 5] in
  let g := LockedGameState.mk 1 0%N in
  StorageHandle.lock_game_state w 1 = (w, Some g) ∧
  LockedGameState.players
    (LockedGameState.add_player (LockedGameState.add_player w g 5) g 5) g = Some [5; 5] ∧
  count_occ Z.eq_dec [5; 5] 5 = 2%nat.
Proof. split_and!; reflexivity. Qed.

(** * Cached count versus membership *)

(** A sequence of membership calls made through one game guard. *)
Inductive member_op := AddMember (p : Z) | RemoveMember (p : Z).

Definition apply_member_op (w : World) (g : LockedGameState.t) (op : member_op) : World :=
  match op with
  | AddMember p => LockedGameState.add_player w g p
  | RemoveMember p => LockedGameState.remove_player w g p
  end.

Definition run_member_ops (w : World) (g : LockedGameState.t) (ops : list member_op) : World :=
  fold_left (fun w op => apply_member_op w g op) ops w.

(** The guard's record, the cached count of its id equal to the record's
    length (a [usize] value), and no repeated member. *)
Definition count_consistent (w : World) (g : LockedGameState.t) : Prop :=
  ∃ gs, game_cells w !! LockedGameState.guard g = Some gs ∧
        read_count w (LockedGameState.id g) = Some (usize_of_len (GameState.players gs)) ∧
        usize_of_len (GameState.players gs) < usize_modulus ∧
        NoDup (GameState.players gs).

(** Every removal names a current member and no addition overflows. *)
Fixpoint member_ops_ok (w : World) (g : LockedGameState.t) (ops : list member_op) : Prop :=
  match ops with
  | [] => True
  | AddMember p :: ops' =>
      usize_of_len (default [] (LockedGameState.players w g)) + 1 < usize_modulus ∧
      member_ops_ok (LockedGameState.add_player w g p) g ops'
  | RemoveMember p :: ops' =>
      LockedGameState.has_player w g p = true ∧
      member_ops_ok (LockedGameState.remove_player w g p) g ops'
  end.

Lemma retain_length_member (ps : list Z) (p : Z) :
  NoDup ps → p ∈ ps →
  length (List.filter (fun x => negb (x =? p)) ps) = (length ps - 1)%nat.
Proof.
  induction ps as [|x ps IH]; intros Hnd Hp; [by apply elem_of_nil in Hp|].
  apply NoDup_cons in Hnd as [Hx Hnd]. simpl.
  destruct (Z.eqb_spec x p) as [->|Hne]; simpl.
  - rewrite retain_absent; [lia|]. intros H. by apply Hx, list_elem_of_In.
  - apply elem_of_cons in Hp as [->|Hp]; [done|].
    rewrite IH by done. destruct ps; [by apply elem_of_nil in Hp | simpl; lia].
Qed.

Lemma add_player_consistent (w : World) (g : LockedGameState.t) (p : Z) :
  count_consistent w g →
  usize_of_len (default [] (LockedGameState.players w g)) + 1 < usize_modulus →
  count_consistent (LockedGameState.add_player w g p) g.
Proof.
  intros (gs & Hgs & Hc & Hb & Hnd) Hlen.
  destruct (decide (p ∈ GameState.players gs)) as [Hp|Hp].
  - rewrite (add_player_present w g p gs Hgs Hp). by exists gs.
  - destruct (add_player_absent_cell w g p gs Hgs Hp) as [Hcell Hn].
    unfold LockedGameState.players in Hlen. rewrite Hgs in Hlen. simpl in Hlen.
    eexists. split_and!; [exact Hcell | | |]; simpl; unfold usize_of_len in *.
    + rewrite Hn, Hc. simpl. f_equal. unfold usize_add.
      rewrite Z.mod_small, length_app by lia. simpl. lia.
    + rewrite length_app. simpl. lia.
    + apply NoDup_app. split_and!; [done | | apply NoDup_singleton].
      intros x Hx ->%list_elem_of_singleton. done.
Qed.

Lemma remove_player_consistent (w : World) (g : LockedGameState.t) (p : Z) :
  count_consistent w g →
  LockedGameState.has_player w g p = true →
  count_consistent (LockedGameState.remove_player w g p) g.
Proof.
  intros (gs & Hgs & Hc & Hb & Hnd) Hp.
  unfold LockedGameState.has_player in Hp. rewrite Hgs in Hp.
  apply vec_contains_true in Hp.
  pose proof (retain_length_member _ _ Hnd Hp) as Hl.
  assert (Hpos : (0 < length (GameState.players gs))%nat)
    by (destruct (GameState.players gs); [by apply elem_of_nil in Hp | simpl; lia]).
  unfold LockedGameState.remove_player. rewrite Hgs.
  eexists. unfold write_game, set_game_num_players, set_state, read_count in *. simpl.
  rewrite lookup_insert_eq. split_and!; [done | | |]; simpl; unfold usize_of_len in *.
  - rewrite lookup_alter_eq, Hc. simpl. f_equal. unfold usize_sub.
    rewrite Z.mod_small, Hl by lia. lia.
  - rewrite Hl. lia.
  - by apply NoDup_ListNoDup, Stdlib.Lists.List.NoDup_filter, NoDup_ListNoDup.
Qed.

Lemma run_member_ops_take (w : World) (g : LockedGameState.t) (ops : list member_op) :
  count_consistent w g → member_ops_ok w g ops →
  ∀ n, count_consistent (run_member_ops w g (take n ops)) g.
Proof.
  revert w. induction ops as [|op ops IH]; intros w Hc Hok n.
  - by rewrite take_nil.
  - destruct n as [|n]; [done|]. simpl.
    destruct op as [p|p]; simpl in Hok; destruct Hok as [Hpre Hok].
    + apply IH; [by apply add_player_consistent | done].
    + apply IH; [by apply remove_player_consistent | done].
Qed.

(** C1 (as amended): starting from a guard whose record has no repeated id
    and whose cached count equals its length, after each call of a
    sequence of [add_player] / [remove_player] calls in which every removal
    names a current member (and no count exceeds [usize]), the cached count
    read by [fetch_num_players] equals the length of the members list. *)
Theorem member_ops_count_matches (w : World) (g : LockedGameState.t)
    (ops : list member_op) :
  count_consistent w g → member_ops_ok w g ops →
  ∀ n, ∃ ps,
    LockedGameState.players (run_member_ops w g (take n ops)) g = Some ps ∧
    read_count (run_member_ops w g (take n ops)) (LockedGameState.id g) =
      Some (usize_of_len ps).
Proof.
  intros Hc Hok n.
  destruct (run_member_ops_take w g ops Hc Hok n) as (gs & Hgs & Hcount & _ & _).
  exists (GameState.players gs). unfold LockedGameState.players. by rewrite Hgs.
Qed.

Lemma member_ops_count_matches_witness :
  count_consistent (StorageHandle.register_game empty_world 7 [1; 2]) (LockedGameState.mk 7 0%N) ∧
  member_ops_ok (StorageHandle.register_game empty_world 7 [1; 2]) (LockedGameState.mk 7 0%N)
    [AddMember 3; RemoveMember 1] ∧
  (∀ n, ∃ ps,
     LockedGameState.players
       (run_member_ops (StorageHandle.register_game empty_world 7 [1; 2])
          (LockedGameState.mk 7 0%N) (take n [AddMember 3; RemoveMember 1]))
       (LockedGameState.mk 7 0%N) = Some ps ∧
     read_count
       (run_member_ops (StorageHandle.register_game empty_world 7 [1; 2])
          (LockedGameState.mk 7 0%N) (take n [AddMember 3; RemoveMember 1])) 7 =
       Some (usize_of_len ps)).
Proof.
  assert (Hc : count_consistent (StorageHandle.register_game empty_world 7 [1; 2])
                 (LockedGameState.mk 7 0%N)).
  { exists (GameState.new [1; 2]). split_and!; [reflexivity | reflexivity | vm_compute; reflexivity |].
    apply NoDup_cons. split; [by intros ?%list_elem_of_singleton | apply NoDup_singleton]. }
  assert (Hok : member_ops_ok (StorageHandle.register_game empty_world 7 [1; 2])
                  (LockedGameState.mk 7 0%N) [AddMember 3; RemoveMember 1]).
  { simpl. split_and!; [vm_compute; reflexivity | reflexivity | exact I]. }
  split_and!; [exact Hc | exact Hok |].
  apply (member_ops_count_matches (StorageHandle.register_game empty_world 7 [1; 2])
           (LockedGameState.mk 7 0%N) [AddMember 3; RemoveMember 1] Hc Hok).
Defined.

(** C1 fails as stated: removing an id that is not a member still
    decrements the cached count, which then differs from the length. *)
Lemma remove_absent_breaks_count :
  let w := StorageHandle.register_game empty_world 1 [1] in
  let g := LockedGameState.mk 1 0%N in
  StorageHandle.lock_game_state w 1 = (w, Some g) ∧
  read_count w 1 = Some 1 ∧
  LockedGameState.players (LockedGameState.remove_player w g 2) g = Some [1] ∧
  read_count (LockedGameState.remove_player w g 2) 1 = Some 0.
Proof. split_and!; reflexivity. Qed.

(** C9 (as amended): when the removed id is a member of the guard's record
    and the cached count equals that record's length (a [usize] value,
    repeated members allowed), the count is positive and [remove_player]
    decrements it without wrapping. *)
Theorem remove_member_no_underflow (w : World) (g : LockedGameState.t) (p : Z)
    (gs : GameState.t) :
  game_cells w !! LockedGameState.guard g = Some gs →
  read_count w (LockedGameState.id g) = Some (usize_of_len (GameState.players gs)) →
  usize_of_len (GameState.players gs) < usize_modulus →
  LockedGameState.has_player w g p = true →
  ∃ c, read_count w (LockedGameState.id g) = Some c ∧ 0 < c ∧
       read_count (LockedGameState.remove_player w g p) (LockedGameState.id g) = Some (c - 1).
Proof.
  intros Hgs Hcount Hb Hp.
  pose proof Hp as Hp'. unfold LockedGameState.has_player in Hp'. rewrite Hgs in Hp'.
  apply vec_contains_true in Hp'.
  assert (Hpos : 0 < usize_of_len (GameState.players gs)).
  { unfold usize_of_len. destruct (GameState.players gs); [by apply elem_of_nil in Hp'|].
    simpl. lia. }
  exists (usize_of_len (GameState.players gs)). split_and!; [done | done |].
  destruct (remove_player_effect w g p gs _ Hgs Hcount) as (_ & _ & _ & _ & Hdec).
  apply Hdec. lia.
Qed.

(** On a record registered with a repeated member: [register_game(1, [5, 5])]
    then [remove_player(5)]. *)
Lemma remove_member_no_underflow_witness :
  game_cells (StorageHandle.register_game empty_world 1 [5; 5]) !! 0%N =
    Some (GameState.new [5; 5]) ∧
  read_count (StorageHandle.register_game empty_world 1 [5; 5]) 1 =
    Some (usize_of_len [5; 5]) ∧
  usize_of_len [5; 5] < usize_modulus ∧
  LockedGameState.has_player (StorageHandle.register_game empty_world 1 [5; 5])
    (LockedGameState.mk 1 0%N) 5 = true ∧
  ∃ c, read_count (StorageHandle.register_game empty_world 1 [5; 5]) 1 = Some c ∧ 0 < c ∧
       read_count (LockedGameState.remove_player (StorageHandle.register_game empty_world 1 [5; 5])
                     (LockedGameState.mk 1 0%N) 5) 1 = Some (c - 1).
Proof.
  split_and!; [reflexivity | reflexivity | vm_compute; reflexivity | reflexivity |].
  apply (remove_member_no_underflow (StorageHandle.register_game empty_world 1 [5; 5])
           (LockedGameState.mk 1 0%N) 5 (GameState.new [5; 5]));
    [reflexivity | reflexivity | vm_compute; reflexivity | reflexivity].
Defined.

(** C9 fails as stated: a game registered with no member has count 0 and
    removing any id wraps the [usize] count to [2^64 - 1]. *)
Lemma remove_on_empty_game_underflows :
  let w := StorageHandle.register_game empty_world 1 [] in
  let g := LockedGameState.mk 1 0%N in
  StorageHandle.lock_game_state w 1 = (w, Some g) ∧
  read_count w 1 = Some 0 ∧
  read_count (LockedGameState.remove_player w g 5) 1 = Some (usize_modulus - 1).
Proof. split_and!; reflexivity. Qed.

(** * Lazy closure *)

Lemma fetch_num_players_counts (w1 w2 : World) (games : list GameEntry.t) :
  StorageState.game_num_players (state w1) = StorageState.game_num_players (state w2) →
  StorageHandle.fetch_num_players w1 games = StorageHandle.fetch_num_players w2 games.
Proof. intros Heq. unfold StorageHandle.fetch_num_players. by rewrite Heq. Qed.

(** C3 (code, at a current guard): after [close] through the guard the
    index holds for [id], the next [lock_game_state(id)] reports "not
    found" and deletes [id] from [games], but the cached count of [id] in
    [game_num_players] is left in place, so [fetch_num_players] keeps
    reporting it exactly as before the purge. *)
Theorem close_then_lock_keeps_count (w : World) (g : LockedGameState.t) (gs : GameState.t) :
  StorageState.games (state w) !! LockedGameState.id g = Some (LockedGameState.guard g) →
  game_cells w !! LockedGameState.guard g = Some gs →
  let '(w2, r) := StorageHandle.lock_game_state (LockedGameState.close w g)
                    (LockedGameState.id g) in
  r = None ∧
  StorageState.games (state w2) !! LockedGameState.id g = None ∧
  read_count w2 (LockedGameState.id g) = read_count w (LockedGameState.id g) ∧
  (∀ games, StorageHandle.fetch_num_players w2 games = StorageHandle.fetch_num_players w games).
Proof.
  intros Hidx Hgs. unfold LockedGameState.close. rewrite Hgs.
  unfold StorageHandle.lock_game_state, write_game. simpl. rewrite Hidx, lookup_insert_eq.
  simpl. unfold set_games, set_state, read_count. simpl.
  split_and!; [done | apply lookup_delete_eq | done |].
  intros games. by apply fetch_num_players_counts.
Qed.


Lemma close_then_lock_keeps_count_witness :
  StorageState.games (state (StorageHandle.register_game empty_world 7 [1; 2])) !! 7 = Some 0%N ∧
  game_cells (StorageHandle.register_game empty_world 7 [1; 2]) !! 0%N =
    Some (GameState.new [1; 2]) ∧
  (let '(w2, r) := StorageHandle.lock_game_state
                     (LockedGameState.close (StorageHandle.register_game empty_world 7 [1; 2])
                        (LockedGameState.mk 7 0%N)) 7 in
   r = None ∧
   StorageState.games (state w2) !! 7 = None ∧
   read_count w2 7 = read_count (StorageHandle.register_game empty_world 7 [1; 2]) 7 ∧
   (∀ games, StorageHandle.fetch_num_players w2 games =
             StorageHandle.fetch_num_players (StorageHandle.register_game empty_world 7 [1; 2]) games)).
Proof.
  split; [reflexivity|]. split; [reflexivity|].
  apply (close_then_lock_keeps_count (StorageHandle.register_game empty_world 7 [1; 2])
           (LockedGameState.mk 7 0%N) (GameState.new [1; 2])); reflexivity.
Defined.

(** * No repeated member *)

(** Reachable stores, for seed and registration lists satisfying [ok];
    every guard operation is allowed on every guard. *)
Inductive reachable_with (ok : list Z → Prop) : World → Prop :=
| reach_init data :
    Forall (fun d => ok (GameStateFromDb.players d)) data →
    reachable_with ok (storage_state_new data)
| reach_register w id ps :
    reachable_with ok w → ok ps → reachable_with ok (StorageHandle.register_game w id ps)
| reach_lock_player w id :
    reachable_with ok w → reachable_with ok (StorageHandle.lock_player_state w id).1
| reach_lock_game w id :
    reachable_with ok w → reachable_with ok (StorageHandle.lock_game_state w id).1
| reach_add w g p :
    reachable_with ok w → reachable_with ok (LockedGameState.add_player w g p)
| reach_remove w g p :
    reachable_with ok w → reachable_with ok (LockedGameState.remove_player w g p)
| reach_close w g :
    reachable_with ok w → reachable_with ok (LockedGameState.close w g)
| reach_join w g gid :
    reachable_with ok w → reachable_with ok (LockedPlayerState.join_game w g gid)
| reach_leave w g :
    reachable_with ok w → reachable_with ok (LockedPlayerState.leave_game w g).

Definition members_nodup (w : World) : Prop :=
  ∀ l gs, game_cells w !! l = Some gs → NoDup (GameState.players gs).

Lemma members_nodup_insert (w : World) (m : gmap loc GameState.t) l v :
  members_nodup w → m = game_cells w → NoDup (GameState.players v) →
  ∀ l' gs, <[l := v]> m !! l' = Some gs → NoDup (GameState.players gs).
Proof.
  intros Hw -> Hv l' gs H. rewrite lookup_insert in H. case_decide.
  - by inversion H; subst.
  - by eapply Hw.
Qed.

(** C5 fails as stated: [register_game] copies a list with a repeated id
    into the new record verbatim. *)
Lemma register_game_keeps_repeats :
  reachable_with (fun _ => True)
    (StorageHandle.register_game (storage_state_new []) 1 [5; 5]) ∧
  game_cells (StorageHandle.register_game (storage_state_new []) 1 [5; 5]) !! 0%N =
    Some (GameState.new [5; 5]) ∧
  ¬ NoDup [5; 5].
Proof.
  split_and!.
  - apply reach_register; [apply reach_init; constructor | exact I].
  - reflexivity.
  - intros Hnd. apply NoDup_cons in Hnd as [Hn _]. apply Hn. by left.
Qed.

Lemma insert_seed_players_frame gid ps (w : World) :
  game_cells (insert_seed_players gid ps w) = game_cells w ∧
  StorageState.games (state (insert_seed_players gid ps w)) = StorageState.games (state w) ∧
  StorageState.game_num_players (state (insert_seed_players gid ps w)) =
    StorageState.game_num_players (state w).
Proof.
  revert w. induction ps as [|p ps IH]; intros w; simpl; [done|].
  match goal with
  | |- game_cells (insert_seed_players _ _ ?W) = _ ∧ _ =>
      destruct (IH W) as (H1 & H2 & H3); rewrite H1, H2, H3
  end.
  done.
Qed.

Lemma members_nodup_seed (data : list GameStateFromDb.t) :
  Forall (fun d => NoDup (GameStateFromDb.players d)) data →
  members_nodup (storage_state_new data).
Proof.
  intros Hd. unfold storage_state_new.
  assert (H0 : members_nodup empty_world) by (intros l gs Hl; simpl in Hl; by rewrite lookup_empty in Hl).
  revert H0. generalize empty_world as w.
  induction data as [|d data IH]; intros w Hw; simpl; [done|].
  apply Forall_cons in Hd as [Hd0 Hd]. apply IH; [done|].
  unfold insert_seed_item, set_games, set_state, set_game_num_players. simpl.
  destruct (insert_seed_players_frame (GameStateFromDb.id d) (GameStateFromDb.players d) w)
    as (Hc & _ & _).
  intros l gs. apply (members_nodup_insert w); [done | by rewrite Hc | done].
Qed.

Lemma add_player_nodup (w : World) g p :
  members_nodup w → members_nodup (LockedGameState.add_player w g p).
Proof.
  intros Hw. unfold LockedGameState.add_player.
  destruct (game_cells w !! LockedGameState.guard g) as [gs|] eqn:E; [|done].
  destruct (vec_contains (GameState.players gs) p) eqn:Hp; simpl; [done|].
  apply vec_contains_false in Hp.
  intros l gs'. apply (members_nodup_insert w); [done | done |]. simpl.
  apply NoDup_app. split_and!; [by eapply Hw | | apply NoDup_singleton].
  intros x Hx ->%list_elem_of_singleton. done.
Qed.

Lemma remove_player_nodup (w : World) g p :
  members_nodup w → members_nodup (LockedGameState.remove_player w g p).
Proof.
  intros Hw. unfold LockedGameState.remove_player.
  destruct (game_cells w !! LockedGameState.guard g) as [gs|] eqn:E; [|done].
  intros l gs'. apply (members_nodup_insert w); [done | done |]. simpl.
  apply NoDup_ListNoDup, Stdlib.Lists.List.NoDup_filter, NoDup_ListNoDup. by eapply Hw.
Qed.

Lemma close_nodup (w : World) g :
  members_nodup w → members_nodup (LockedGameState.close w g).
Proof.
  intros Hw. unfold LockedGameState.close.
  destruct (game_cells w !! LockedGameState.guard g) as [gs|] eqn:E; [|done].
  intros l gs'. apply (members_nodup_insert w); [done | done |]. simpl. by eapply Hw.
Qed.

(** C5 (as amended): when every list given to the seed and to
    [register_game] has no repeated id, no game record of a reachable store
    has a repeated member: [add_player], [remove_player], [close], the
    leases and the player-side calls all keep it. *)
Theorem reachable_members_nodup (w : World) :
  reachable_with NoDup w → members_nodup w.
Proof.
  induction 1 as [data Hd | w id ps _ IH Hps | w id _ IH | w id _ IH | w g p _ IH
                 | w g p _ IH | w g _ IH | w g gid _ IH | w g _ IH].
  - by apply members_nodup_seed.
  - unfold StorageHandle.register_game, set_games, set_game_num_players, set_state. simpl.
    intros l gs. by apply (members_nodup_insert w).
  - unfold StorageHandle.lock_player_state.
    destruct (StorageState.players (state w) !! id); [done|]. exact IH.
  - unfold StorageHandle.lock_game_state.
    destruct (StorageState.games (state w) !! id) as [l|]; [|done].
    destruct (game_cells w !! l) as [gs|]; [|done].
    destruct (GameState.closed gs); [exact IH | done].
  - by apply add_player_nodup.
  - by apply remove_player_nodup.
  - by apply close_nodup.
  - unfold LockedPlayerState.join_game.
    destruct (player_cells w !! LockedPlayerState.guard g); [exact IH | done].
  - unfold LockedPlayerState.leave_game.
    destruct (player_cells w !! LockedPlayerState.guard g); [exact IH | done].
Qed.

Lemma reachable_members_nodup_witness :
  reachable_with NoDup (StorageHandle.register_game (storage_state_new []) 7 [1; 2]) ∧
  members_nodup (StorageHandle.register_game (storage_state_new []) 7 [1; 2]).
Proof.
  assert (Hr : reachable_with NoDup (StorageHandle.register_game (storage_state_new []) 7 [1; 2])).
  { apply reach_register; [apply reach_init; constructor|].
    apply NoDup_cons. split; [by intros ?%list_elem_of_singleton | apply NoDup_singleton]. }
  split; [exact Hr | apply (reachable_members_nodup _ Hr)].
Defined.

(** * Seeded initialization *)

(** The index maps [p] to a live record attached to game [x], with no
    sender, as [StorageState::new] creates it. *)
Definition seeded_attached (w : World) (p x : Z) : Prop :=
  ∃ l, StorageState.players (state w) !! p = Some l ∧
       player_cells w !! l = Some (PlayerState.mk (Some x) None).

Lemma seed_player_step_attached_other gid q (w : World) p x :
  world_wf w → q ≠ p → seeded_attached w p x →
  seeded_attached (insert_seed_players gid [q] w) p x.
Proof.
  intros Hwf Hq (l & Hl & Hc). exists l. simpl. unfold set_players, set_state. simpl.
  rewrite lookup_insert_ne by done. split; [done|].
  rewrite lookup_insert_ne; [done|]. intros <-.
  assert (Hs : is_Some (player_cells w !! next_loc w)) by (rewrite Hc; by eexists).
  pose proof (wf_player_cells w Hwf (next_loc w) Hs). lia.
Qed.

Lemma insert_seed_players_attached_other gid ps (w : World) p x :
  world_wf w → p ∉ ps → seeded_attached w p x →
  seeded_attached (insert_seed_players gid ps w) p x.
Proof.
  revert w. induction ps as [|q ps IH]; intros w Hwf Hp Ha; [done|].
  apply not_elem_of_cons in Hp as [Hq Hp].
  change (insert_seed_players gid (q :: ps) w)
    with (insert_seed_players gid ps (insert_seed_players gid [q] w)).
  apply IH; [by apply insert_seed_players_wf | done |].
  apply seed_player_step_attached_other; auto.
Qed.

Lemma insert_seed_players_attached gid ps (w : World) p :
  world_wf w → p ∈ ps → seeded_attached (insert_seed_players gid ps w) p gid.
Proof.
  revert w. induction ps as [|q ps IH]; intros w Hwf Hp; [by apply elem_of_nil in Hp|].
  change (insert_seed_players gid (q :: ps) w)
    with (insert_seed_players gid ps (insert_seed_players gid [q] w)).
  destruct (decide (p ∈ ps)) as [Hin|Hin].
  - apply IH; [by apply insert_seed_players_wf | done].
  - apply elem_of_cons in Hp as [->|]; [|done].
    apply insert_seed_players_attached_other; [by apply insert_seed_players_wf | done |].
    exists (next_loc w). simpl. unfold set_players, set_state. simpl.
    by rewrite !lookup_insert_eq.
Qed.

Lemma insert_seed_item_frame (w : World) d :
  StorageState.players (state (insert_seed_item w d)) =
    StorageState.players (state (insert_seed_players (GameStateFromDb.id d)
                                   (GameStateFromDb.players d) w)) ∧
  player_cells (insert_seed_item w d) =
    player_cells (insert_seed_players (GameStateFromDb.id d) (GameStateFromDb.players d) w) ∧
  (∀ k, read_count (insert_seed_item w d) k =
          if decide (GameStateFromDb.id d = k)
          then Some (usize_of_len (GameStateFromDb.players d)) else read_count w k).
Proof.
  destruct (insert_seed_players_frame (GameStateFromDb.id d) (GameStateFromDb.players d) w)
    as (_ & _ & Hn).
  unfold insert_seed_item, set_games, set_state, set_game_num_players, read_count.
  simpl. split_and!; [done | done |]. intros k. by rewrite lookup_insert, Hn.
Qed.

Lemma insert_seed_item_attached_other (w : World) d p x :
  world_wf w → p ∉ GameStateFromDb.players d → seeded_attached w p x →
  seeded_attached (insert_seed_item w d) p x.
Proof.
  intros Hwf Hp Ha. destruct (insert_seed_item_frame w d) as (Hp1 & Hp2 & _).
  destruct (insert_seed_players_attached_other (GameStateFromDb.id d)
              (GameStateFromDb.players d) w p x Hwf Hp Ha) as (l & H1 & H2).
  exists l. by rewrite Hp1, Hp2.
Qed.

Lemma fold_seed_frame (rest : list GameStateFromDb.t) (w : World) p x k :
  world_wf w →
  (∀ d, d ∈ rest → (p ∉ GameStateFromDb.players d) ∧ GameStateFromDb.id d ≠ k) →
  seeded_attached w p x →
  seeded_attached (fold_left insert_seed_item rest w) p x ∧
  read_count (fold_left insert_seed_item rest w) k = read_count w k.
Proof.
  revert w. induction rest as [|d rest IH]; intros w Hwf Hall Ha; simpl; [done|].
  destruct (Hall d ltac:(by left)) as [Hp Hk].
  destruct (IH (insert_seed_item w d)) as [IH1 IH2].
  - by apply insert_seed_item_wf.
  - intros d' Hd'. apply Hall. by right.
  - by apply insert_seed_item_attached_other.
  - split; [done|]. rewrite IH2. destruct (insert_seed_item_frame w d) as (_ & _ & Hc).
    rewrite Hc. by case_decide.
Qed.

(** Seed rows with distinct game ids, no player listed under two games. *)
Definition seed_disjoint (data : list GameStateFromDb.t) : Prop :=
  ∀ d1 d2 p, d1 ∈ data → d2 ∈ data →
    p ∈ GameStateFromDb.players d1 → p ∈ GameStateFromDb.players d2 →
    GameStateFromDb.id d1 = GameStateFromDb.id d2.

Lemma fold_seed_attached (data : list GameStateFromDb.t) (w : World) :
  world_wf w → NoDup (map GameStateFromDb.id data) → seed_disjoint data →
  ∀ d p, d ∈ data → p ∈ GameStateFromDb.players d →
    seeded_attached (fold_left insert_seed_item data w) p (GameStateFromDb.id d) ∧
    read_count (fold_left insert_seed_item data w) (GameStateFromDb.id d) =
      Some (usize_of_len (GameStateFromDb.players d)).
Proof.
  revert w. induction data as [|d0 rest IH]; intros w Hwf Hnd Hdis d p Hd Hp;
    [by apply elem_of_nil in Hd|].
  simpl in Hnd. apply NoDup_cons in Hnd as [Hnot Hnd]. simpl.
  assert (Hout : ∀ d', d' ∈ rest → GameStateFromDb.id d' ≠ GameStateFromDb.id d0).
  { intros d' Hd' Heq. apply Hnot. apply list_elem_of_In. rewrite <- Heq.
    apply in_map. by apply list_elem_of_In. }
  apply elem_of_cons in Hd as [->|Hd].
  - destruct (insert_seed_item_frame w d0) as (Hp1 & Hp2 & Hc).
    destruct (fold_seed_frame rest (insert_seed_item w d0) p (GameStateFromDb.id d0)
                (GameStateFromDb.id d0)) as [Ha Hk].
    + by apply insert_seed_item_wf.
    + intros d' Hd'. split; [|by apply Hout].
      intros Hp'. apply (Hout d' Hd'). eapply Hdis; [by right | by left | done | done].
    + destruct (insert_seed_players_attached (GameStateFromDb.id d0)
                  (GameStateFromDb.players d0) w p Hwf Hp) as (l & H1 & H2).
      exists l. by rewrite Hp1, Hp2.
    + split; [done|]. rewrite Hk, Hc. by case_decide.
  - apply IH; [by apply insert_seed_item_wf | done | | done | done].
    intros d1 d2 q H1 H2. apply Hdis; by right.
Qed.

(** C7 (as amended): when the seed has distinct game ids and lists no
    player under two games, every listed member's lease reports the game it
    was seeded in and the game's cached count is its list's length (so the
    seed [{7, [1,2]}] gives [joined_game_id] = [Some 7] for players 1 and 2
    and [read_count(7) = 2]). *)
Theorem seed_members_attached (data : list GameStateFromDb.t) :
  NoDup (map GameStateFromDb.id data) → seed_disjoint data →
  ∀ d p, d ∈ data → p ∈ GameStateFromDb.players d →
    (let '(w', g) := StorageHandle.lock_player_state (storage_state_new data) p in
     LockedPlayerState.joined_game_id w' g) = Some (GameStateFromDb.id d) ∧
    read_count (storage_state_new data) (GameStateFromDb.id d) =
      Some (usize_of_len (GameStateFromDb.players d)).
Proof.
  intros Hnd Hdis d p Hd Hp.
  destruct (fold_seed_attached data empty_world empty_world_wf Hnd Hdis d p Hd Hp)
    as [(l & Hl & Hc) Hcount].
  split; [|exact Hcount].
  unfold storage_state_new, StorageHandle.lock_player_state in *. rewrite Hl.
  unfold LockedPlayerState.joined_game_id. simpl. by rewrite Hc.
Qed.

Lemma seed_members_attached_witness :
  NoDup (map GameStateFromDb.id [GameStateFromDb.mk 7 [1; 2]]) ∧
  seed_disjoint [GameStateFromDb.mk 7 [1; 2]] ∧
  ((let '(w', g) := StorageHandle.lock_player_state
                      (storage_state_new [GameStateFromDb.mk 7 [1; 2]]) 1 in
    LockedPlayerState.joined_game_id w' g) = Some 7 ∧
   read_count (storage_state_new [GameStateFromDb.mk 7 [1; 2]]) 7 = Some 2) ∧
  ((let '(w', g) := StorageHandle.lock_player_state
                      (storage_state_new [GameStateFromDb.mk 7 [1; 2]]) 2 in
    LockedPlayerState.joined_game_id w' g) = Some 7 ∧
   read_count (storage_state_new [GameStateFromDb.mk 7 [1; 2]]) 7 = Some 2).
Proof.
  assert (Hnd : NoDup (map GameStateFromDb.id [GameStateFromDb.mk 7 [1; 2]]))
    by apply NoDup_singleton.
  assert (Hdis : seed_disjoint [GameStateFromDb.mk 7 [1; 2]]).
  { intros d1 d2 q H1 H2 _ _.
    apply list_elem_of_singleton in H1, H2. by subst. }
  assert (Hd : GameStateFromDb.mk 7 [1; 2] ∈ [GameStateFromDb.mk 7 [1; 2]]) by by left.
  split; [exact Hnd|]. split; [exact Hdis|]. split.
  - apply (seed_members_attached [GameStateFromDb.mk 7 [1; 2]] Hnd Hdis
             (GameStateFromDb.mk 7 [1; 2]) 1 Hd). by left.
  - apply (seed_members_attached [GameStateFromDb.mk 7 [1; 2]] Hnd Hdis
             (GameStateFromDb.mk 7 [1; 2]) 2 Hd). right. by left.
Defined.

(** C7 fails as stated for seeds that repeat a player or a game id: the
    later row wins, so player 1 seeded in games 7 and 8 ends up in game 8,
    and two rows for game 7 leave the count of the last one. *)
Lemma seed_later_rows_win :
  (let '(w', g) := StorageHandle.lock_player_state
                     (storage_state_new [GameStateFromDb.mk 7 [1]; GameStateFromDb.mk 8 [1]]) 1 in
   LockedPlayerState.joined_game_id w' g) = Some 8 ∧
  read_count (storage_state_new [GameStateFromDb.mk 7 [1; 2]; GameStateFromDb.mk 7 [3]]) 7 =
    Some 1.
Proof. split; reflexivity. Qed.

(** * Further properties of the store *)

Lemma usize_as_i32_small (v : Z) : 0 ≤ v < 2 ^ 31 → usize_as_i32 v = v.
Proof.
  intros Hv. unfold usize_as_i32. rewrite Z.mod_small by lia.
  destruct (Z.geb_spec v (2 ^ 31)); lia.
Qed.

(** [fetch_num_players] keeps the entries and their order; an entry whose
    id has a cached count below [2^31] gets exactly that count, and an entry
    whose id has no cached count is left as it was. *)
Theorem fetch_num_players_fills (w : World) (games : list GameEntry.t) :
  length (StorageHandle.fetch_num_players w games) = length games ∧
  ∀ i e, games !! i = Some e →
    ∃ e', StorageHandle.fetch_num_players w games !! i = Some e' ∧
          GameEntry.id e' = GameEntry.id e ∧
          (read_count w (GameEntry.id e) = None → e' = e) ∧
          (∀ n, read_count w (GameEntry.id e) = Some n → 0 ≤ n < 2 ^ 31 →
                GameEntry.num_players e' = n).
Proof.
  unfold StorageHandle.fetch_num_players, read_count. split; [apply length_map|].
  intros i e Hi. rewrite list_lookup_fmap, Hi. simpl. eexists. split; [done|].
  destruct (StorageState.game_num_players (state w) !! GameEntry.id e) as [m|]; simpl.
  - split_and!; [done | discriminate |]. intros n [= <-] Hn. by apply usize_as_i32_small.
  - split_and!; [done | done | discriminate].
Qed.

(** With wrapping [usize] arithmetic (a build without overflow checks):
    after the count of a game has been driven to 0, one more
    [remove_player] wraps it to [usize::MAX = 2^64 - 1], which
    [fetch_num_players] reports as [-1]. *)
Theorem listing_after_underflow (w : World) (g : LockedGameState.t) (p n : Z)
    (gs : GameState.t) :
  game_cells w !! LockedGameState.guard g = Some gs →
  read_count w (LockedGameState.id g) = Some 0 →
  read_count (LockedGameState.remove_player w g p) (LockedGameState.id g) =
    Some (usize_modulus - 1) ∧
  StorageHandle.fetch_num_players (LockedGameState.remove_player w g p)
    [GameEntry.mk (LockedGameState.id g) n] = [GameEntry.mk (LockedGameState.id g) (-1)].
Proof.
  intros Hgs Hc.
  destruct (remove_player_effect w g p gs 0 Hgs Hc) as (_ & _ & _ & Hr & _).
  split; [rewrite Hr; reflexivity|].
  unfold StorageHandle.fetch_num_players. simpl. unfold read_count in Hr. rewrite Hr.
  reflexivity.
Qed.

Lemma listing_after_underflow_witness :
  game_cells (StorageHandle.register_game empty_world 1 []) !! 0%N = Some (GameState.new []) ∧
  read_count (StorageHandle.register_game empty_world 1 []) 1 = Some 0 ∧
  read_count (LockedGameState.remove_player (StorageHandle.register_game empty_world 1 [])
       (LockedGameState.mk 1 0%N) 5) 1 = Some (usize_modulus - 1) ∧
  StorageHandle.fetch_num_players
    (LockedGameState.remove_player (StorageHandle.register_game empty_world 1 [])
       (LockedGameState.mk 1 0%N) 5) [GameEntry.mk 1 0] = [GameEntry.mk 1 (-1)].
Proof.
  split; [reflexivity|]. split; [reflexivity|].
  apply (listing_after_underflow (StorageHandle.register_game empty_world 1 [])
           (LockedGameState.mk 1 0%N) 5 0 (GameState.new [])); reflexivity.
Defined.

(** [join_game] and [leave_game] set and clear the guard's game, keep its
    sender, and leave the index, every other player record and every game
    record as they were. *)
Theorem player_guard_join_leave (w : World) (g : LockedPlayerState.t) (gid : Z)
    (ps : PlayerState.t) :
  player_cells w !! LockedPlayerState.guard g = Some ps →
  LockedPlayerState.joined_game_id (LockedPlayerState.join_game w g gid) g = Some gid ∧
  LockedPlayerState.joined_game_id (LockedPlayerState.leave_game w g) g = None ∧
  player_cells (LockedPlayerState.join_game w g gid) !! LockedPlayerState.guard g =
    Some (PlayerState.mk (Some gid) (PlayerState.sender ps)) ∧
  player_cells (LockedPlayerState.leave_game w g) !! LockedPlayerState.guard g =
    Some (PlayerState.mk None (PlayerState.sender ps)) ∧
  (∀ l, l ≠ LockedPlayerState.guard g →
     player_cells (LockedPlayerState.join_game w g gid) !! l = player_cells w !! l ∧
     player_cells (LockedPlayerState.leave_game w g) !! l = player_cells w !! l) ∧
  state (LockedPlayerState.join_game w g gid) = state w ∧
  state (LockedPlayerState.leave_game w g) = state w ∧
  game_cells (LockedPlayerState.join_game w g gid) = game_cells w ∧
  game_cells (LockedPlayerState.leave_game w g) = game_cells w.
Proof.
  intros Hps. unfold LockedPlayerState.join_game, LockedPlayerState.leave_game,
    LockedPlayerState.joined_game_id. rewrite Hps. unfold write_player. simpl.
  rewrite !lookup_insert_eq. split_and!; try done.
  intros l Hl. by rewrite !lookup_insert_ne.
Qed.

Lemma player_guard_join_leave_witness :
  player_cells (StorageHandle.lock_player_state empty_world 1).1 !! 0%N =
    Some PlayerState.default ∧
  LockedPlayerState.joined_game_id
    (LockedPlayerState.join_game (StorageHandle.lock_player_state empty_world 1).1
       (LockedPlayerState.mk 1 0%N) 7) (LockedPlayerState.mk 1 0%N) = Some 7 ∧
  LockedPlayerState.joined_game_id
    (LockedPlayerState.leave_game (StorageHandle.lock_player_state empty_world 1).1
       (LockedPlayerState.mk 1 0%N)) (LockedPlayerState.mk 1 0%N) = None.
Proof.
  split; [reflexivity|].
  destruct (player_guard_join_leave (StorageHandle.lock_player_state empty_world 1).1
              (LockedPlayerState.mk 1 0%N) 7 PlayerState.default) as (H1 & H2 & _);
    [reflexivity|].
  split; [exact H1 | exact H2].
Defined.

(** A second [lock_player_state(id)] finds the record the first created or
    found and changes nothing, so a game joined through the first guard is
    seen through every later lease of the same id. *)
Theorem lease_player_persists (w : World) (id gid : Z) :
  world_wf w →
  let '(w1, g1) := StorageHandle.lock_player_state w id in
  StorageHandle.lock_player_state w1 id = (w1, g1) ∧
  (let '(w2, g2) := StorageHandle.lock_player_state
                      (LockedPlayerState.join_game w1 g1 gid) id in
   g2 = g1 ∧ LockedPlayerState.joined_game_id w2 g2 = Some gid).
Proof.
  intros Hwf. pose proof (lock_player_state_effect w id Hwf) as Ht.
  destruct (StorageHandle.lock_player_state w id) as [w1 g1] eqn:E.
  destruct Ht as (Hid & Hidx & [ps Hps] & _ & _ & _).
  destruct g1 as [i l]. simpl in *. subst i.
  unfold StorageHandle.lock_player_state at 1. rewrite Hidx. split; [done|].
  destruct (player_guard_join_leave w1 (LockedPlayerState.mk id l) gid ps Hps)
    as (Hj & _ & _ & _ & _ & Hst & _).
  unfold StorageHandle.lock_player_state. rewrite Hst, Hidx. split; [done | exact Hj].
Qed.

Lemma lease_player_persists_witness :
  world_wf empty_world ∧
  (let '(w1, g1) := StorageHandle.lock_player_state empty_world 1 in
   StorageHandle.lock_player_state w1 1 = (w1, g1) ∧
   (let '(w2, g2) := StorageHandle.lock_player_state
                       (LockedPlayerState.join_game w1 g1 7) 1 in
    g2 = g1 ∧ LockedPlayerState.joined_game_id w2 g2 = Some 7)).
Proof.
  split; [apply empty_world_wf|].
  apply (lease_player_persists empty_world 1 7). apply empty_world_wf.
Defined.

(** On a well-formed store [lock_game_state(id)] never touches the counts,
    the player side or any record: it hands out a guard on the indexed
    record when that record is open (changing nothing); it reports "not
    found" without change when [id] is not indexed, and when the indexed
    record is closed it reports "not found" and deletes [id] from [games]. *)
Theorem lock_game_state_outcome (w : World) (id : Z) :
  world_wf w →
  let '(w', r) := StorageHandle.lock_game_state w id in
  StorageState.game_num_players (state w') = StorageState.game_num_players (state w) ∧
  StorageState.players (state w') = StorageState.players (state w) ∧
  player_cells w' = player_cells w ∧ game_cells w' = game_cells w ∧
  match r with
  | Some g =>
      w' = w ∧ LockedGameState.id g = id ∧
      StorageState.games (state w) !! id = Some (LockedGameState.guard g) ∧
      (∃ gs, game_cells w !! LockedGameState.guard g = Some gs ∧ GameState.closed gs = false)
  | None =>
      (StorageState.games (state w) !! id = None ∧ w' = w) ∨
      (∃ l gs, StorageState.games (state w) !! id = Some l ∧
               game_cells w !! l = Some gs ∧ GameState.closed gs = true ∧
               StorageState.games (state w') = delete id (StorageState.games (state w)))
  end.
Proof.
  intros Hwf. unfold StorageHandle.lock_game_state.
  destruct (StorageState.games (state w) !! id) as [l|] eqn:Ei.
  - destruct (game_cells w !! l) as [gs|] eqn:Ec.
    + destruct (GameState.closed gs) eqn:Ecl; simpl.
      * split_and!; try done. right. by exists l, gs.
      * split_and!; try done. by exists gs.
    + exfalso. destruct (wf_games w Hwf id l Ei) as [? Hc]. congruence.
  - split_and!; try done. by left.
Qed.

Lemma lock_game_state_outcome_witness :
  world_wf (StorageHandle.register_game empty_world 7 [1; 2]) ∧
  (let '(w', r) := StorageHandle.lock_game_state
                     (StorageHandle.register_game empty_world 7 [1; 2]) 7 in
   StorageState.game_num_players (state w') =
     StorageState.game_num_players (state (StorageHandle.register_game empty_world 7 [1; 2])) ∧
   StorageState.players (state w') =
     StorageState.players (state (StorageHandle.register_game empty_world 7 [1; 2])) ∧
   player_cells w' = player_cells (StorageHandle.register_game empty_world 7 [1; 2]) ∧
   game_cells w' = game_cells (StorageHandle.register_game empty_world 7 [1; 2]) ∧
   match r with
   | Some g =>
       w' = StorageHandle.register_game empty_world 7 [1; 2] ∧ LockedGameState.id g = 7 ∧
       StorageState.games (state (StorageHandle.register_game empty_world 7 [1; 2])) !! 7 =
         Some (LockedGameState.guard g) ∧
       (∃ gs, game_cells (StorageHandle.register_game empty_world 7 [1; 2]) !!
                LockedGameState.guard g = Some gs ∧ GameState.closed gs = false)
   | None =>
       (StorageState.games (state (StorageHandle.register_game empty_world 7 [1; 2])) !! 7 = None ∧
        w' = StorageHandle.register_game empty_world 7 [1; 2]) ∨
       (∃ l gs, StorageState.games (state (StorageHandle.register_game empty_world 7 [1; 2])) !! 7
                  = Some l ∧
                game_cells (StorageHandle.register_game empty_world 7 [1; 2]) !! l = Some gs ∧
                GameState.closed gs = true ∧
                StorageState.games (state w') =
                  delete 7 (StorageState.games (state (StorageHandle.register_game empty_world 7 [1; 2]))))
   end).
Proof.
  assert (Hwf : world_wf (StorageHandle.register_game empty_world 7 [1; 2]))
    by apply register_game_wf, empty_world_wf.
  split; [exact Hwf|].
  apply (lock_game_state_outcome (StorageHandle.register_game empty_world 7 [1; 2]) 7 Hwf).
Defined.



(** A guard whose record [register_game] has replaced in the index keeps
    acting on the cached count of its id: [add_player] through it bumps the
    count of the replacement record, whose members are not changed, so the
    indexed record's count and length disagree. *)
Theorem orphaned_guard_moves_count (w : World) (g : LockedGameState.t) (gs : GameState.t)
    (players : list Z) (p : Z) :
  world_wf w →
  game_cells w !! LockedGameState.guard g = Some gs →
  p ∉ GameState.players gs →
  let w' := LockedGameState.add_player
              (StorageHandle.register_game w (LockedGameState.id g) players) g p in
  read_count w' (LockedGameState.id g) = Some (usize_add (usize_of_len players) 1) ∧
  ∃ l, StorageState.games (state w') !! LockedGameState.id g = Some l ∧
       l ≠ LockedGameState.guard g ∧
       game_cells w' !! l = Some (GameState.new players).
Proof.
  intros Hwf Hgs Hp.
  assert (Hne : next_loc w ≠ LockedGameState.guard g).
  { intros Heq. rewrite <- Heq, fresh_game_cell in Hgs by done. discriminate. }
  set (w1 := StorageHandle.register_game w (LockedGameState.id g) players).
  assert (Hgs1 : game_cells w1 !! LockedGameState.guard g = Some gs).
  { subst w1. unfold StorageHandle.register_game, set_games, set_game_num_players, set_state.
    simpl. by rewrite lookup_insert_ne. }
  destruct (add_player_absent_cell w1 g p gs Hgs1 Hp) as [_ Hc].
  split.
  - rewrite Hc. subst w1. unfold read_count, StorageHandle.register_game, set_games,
      set_game_num_players, set_state. simpl. by rewrite lookup_insert_eq.
  - exists (next_loc w). unfold LockedGameState.add_player. rewrite Hgs1.
    apply vec_contains_false in Hp. rewrite Hp. simpl.
    subst w1. unfold StorageHandle.register_game, set_games, set_game_num_players,
      set_state. simpl. rewrite lookup_insert_eq, lookup_insert_ne by done.
    split_and!; [done | done | by rewrite lookup_insert_eq].
Qed.

Lemma orphaned_guard_moves_count_witness :
  world_wf (StorageHandle.register_game empty_world 7 [1]) ∧
  game_cells (StorageHandle.register_game empty_world 7 [1]) !! 0%N = Some (GameState.new [1]) ∧
  (2 ∉ [1]) ∧
  (let w' := LockedGameState.add_player
               (StorageHandle.register_game (StorageHandle.register_game empty_world 7 [1]) 7 [])
               (LockedGameState.mk 7 0%N) 2 in
   read_count w' 7 = Some (usize_add (usize_of_len ([] : list Z)) 1) ∧
   ∃ l, StorageState.games (state w') !! 7 = Some l ∧ l ≠ 0%N ∧
        game_cells w' !! l = Some (GameState.new [])).
Proof.
  assert (Hwf : world_wf (StorageHandle.register_game empty_world 7 [1]))
    by apply register_game_wf, empty_world_wf.
  assert (Hp : 2 ∉ [1]) by (intros ?%list_elem_of_singleton; lia).
  split_and!; [exact Hwf | reflexivity | exact Hp |].
  apply (orphaned_guard_moves_count (StorageHandle.register_game empty_world 7 [1])
           (LockedGameState.mk 7 0%N) (GameState.new [1]) [] 2 Hwf); [reflexivity | exact Hp].
Defined.

(** What a game guard's call may change. *)
Definition guard_frame (g : LockedGameState.t) (w w' : World) : Prop :=
  StorageState.players (state w') = StorageState.players (state w) ∧
  StorageState.games (state w') = StorageState.games (state w) ∧
  player_cells w' = player_cells w ∧
  next_loc w' = next_loc w ∧
  (∀ l, l ≠ LockedGameState.guard g → game_cells w' !! l = game_cells w !! l) ∧
  (∀ k, k ≠ LockedGameState.id g → read_count w' k = read_count w k).

(** [add_player], [remove_player] and [close] change only the guard's own
    record and the cached count of the guard's id; [close] leaves every
    count as it was. *)
Theorem game_guard_ops_frame (w : World) (g : LockedGameState.t) (p : Z) :
  guard_frame g w (LockedGameState.add_player w g p) ∧
  guard_frame g w (LockedGameState.remove_player w g p) ∧
  guard_frame g w (LockedGameState.close w g) ∧
  (∀ k, read_count (LockedGameState.close w g) k = read_count w k).
Proof.
  unfold LockedGameState.add_player, LockedGameState.remove_player, LockedGameState.close.
  destruct (game_cells w !! LockedGameState.guard g) as [gs|];
    [|unfold guard_frame; split_and!; done].
  split_and!.
  - destruct (negb _); [|unfold guard_frame; split_and!; done].
    unfold guard_frame, write_game, set_game_num_players, set_state, read_count. simpl.
    split_and!; try done.
    + intros l Hl. by rewrite lookup_insert_ne.
    + intros k Hk. by rewrite lookup_alter_ne.
  - unfold guard_frame, write_game, set_game_num_players, set_state, read_count. simpl.
    split_and!; try done.
    + intros l Hl. by rewrite lookup_insert_ne.
    + intros k Hk. by rewrite lookup_alter_ne.
  - unfold guard_frame, write_game, read_count. simpl. split_and!; try done.
    intros l Hl. by rewrite lookup_insert_ne.
  - done.
Qed.

(** Through a guard on a live record, [add_player(p)] makes [p] a member
    and [remove_player(p)] makes it a non-member, and neither changes
    whether any other id is a member. *)
Theorem membership_after_add_remove (w : World) (g : LockedGameState.t) (p : Z)
    (gs : GameState.t) :
  game_cells w !! LockedGameState.guard g = Some gs →
  LockedGameState.has_player (LockedGameState.add_player w g p) g p = true ∧
  LockedGameState.has_player (LockedGameState.remove_player w g p) g p = false ∧
  ∀ q, q ≠ p →
    LockedGameState.has_player (LockedGameState.add_player w g p) g q =
      LockedGameState.has_player w g q ∧
    LockedGameState.has_player (LockedGameState.remove_player w g p) g q =
      LockedGameState.has_player w g q.
Proof.
  intros Hgs. unfold LockedGameState.has_player.
  unfold LockedGameState.add_player, LockedGameState.remove_player. rewrite Hgs.
  destruct (vec_contains (GameState.players gs) p) eqn:Hp; simpl;
    unfold write_game; simpl; rewrite ?Hgs, !lookup_insert_eq.
  - split_and!; [done | apply vec_contains_false, retain_removes |].
    intros q Hq. split; [done|].
    apply eq_bool_prop_intro. rewrite !Is_true_true, !vec_contains_true.
    simpl. rewrite !list_elem_of_In, filter_In. split; [tauto|].
    intros H. split; [done|]. apply negb_true_iff, Z.eqb_neq. done.
  - split_and!; [apply vec_contains_true, elem_of_app; right; by left
                | apply vec_contains_false, retain_removes |].
    intros q Hq. split.
    + apply eq_bool_prop_intro. rewrite !Is_true_true, !vec_contains_true.
      simpl. rewrite elem_of_app, list_elem_of_singleton. intuition.
    + apply eq_bool_prop_intro. rewrite !Is_true_true, !vec_contains_true.
      simpl. rewrite !list_elem_of_In, filter_In. split; [tauto|].
      intros H. split; [done|]. apply negb_true_iff, Z.eqb_neq. done.
Qed.

Lemma membership_after_add_remove_witness :
  game_cells (StorageHandle.register_game empty_world 7 [1; 2]) !! 0%N =
    Some (GameState.new [1; 2]) ∧
  LockedGameState.has_player
    (LockedGameState.add_player (StorageHandle.register_game empty_world 7 [1; 2])
       (LockedGameState.mk 7 0%N) 3) (LockedGameState.mk 7 0%N) 3 = true ∧
  LockedGameState.has_player
    (LockedGameState.remove_player (StorageHandle.register_game empty_world 7 [1; 2])
       (LockedGameState.mk 7 0%N) 3) (LockedGameState.mk 7 0%N) 3 = false ∧
  ∀ q, q ≠ 3 →
    LockedGameState.has_player
      (LockedGameState.add_player (StorageHandle.register_game empty_world 7 [1; 2])
         (LockedGameState.mk 7 0%N) 3) (LockedGameState.mk 7 0%N) q =
    LockedGameState.has_player (StorageHandle.register_game empty_world 7 [1; 2])
      (LockedGameState.mk 7 0%N) q ∧
    LockedGameState.has_player
      (LockedGameState.remove_player (StorageHandle.register_game empty_world 7 [1; 2])
         (LockedGameState.mk 7 0%N) 3) (LockedGameState.mk 7 0%N) q =
    LockedGameState.has_player (StorageHandle.register_game empty_world 7 [1; 2])
      (LockedGameState.mk 7 0%N) q.
Proof.
  split; [reflexivity|].
  apply (membership_after_add_remove (StorageHandle.register_game empty_world 7 [1; 2])
           (LockedGameState.mk 7 0%N) 3 (GameState.new [1; 2])). reflexivity.
Defined.

(** The index maps game [k] to a live open record with members [ps], and
    the cached count of [k] is the length of [ps]. *)
Definition seeded_game (w : World) (k : Z) (ps : list Z) : Prop :=
  (∃ l, StorageState.games (state w) !! k = Some l ∧
        game_cells w !! l = Some (GameState.mk ps false)) ∧
  read_count w k = Some (usize_of_len ps).

Lemma insert_seed_item_game (w : World) d :
  seeded_game (insert_seed_item w d) (GameStateFromDb.id d) (GameStateFromDb.players d).
Proof.
  split; [exists (next_loc (insert_seed_players (GameStateFromDb.id d)
                             (GameStateFromDb.players d) w)) |];
    unfold read_count, insert_seed_item, set_games, set_game_num_players, set_state; simpl;
    by rewrite !lookup_insert_eq.
Qed.

Lemma insert_seed_item_game_other (w : World) d k ps :
  world_wf w → GameStateFromDb.id d ≠ k → seeded_game w k ps →
  seeded_game (insert_seed_item w d) k ps.
Proof.
  intros Hwf Hk [(l & Hl & Hc) Hn].
  pose proof (insert_seed_players_wf (GameStateFromDb.id d) (GameStateFromDb.players d) w Hwf)
    as Hwf1.
  destruct (insert_seed_players_frame (GameStateFromDb.id d) (GameStateFromDb.players d) w)
    as (Hc1 & Hg1 & Hn1).
  split; cycle 1.
  { unfold read_count, insert_seed_item, set_games, set_game_num_players, set_state in *. simpl.
    rewrite lookup_insert_ne by done. by rewrite Hn1. }
  exists l. unfold insert_seed_item, set_games, set_game_num_players, set_state. simpl.
  rewrite lookup_insert_ne by done. rewrite Hg1. split; [done|].
  rewrite lookup_insert_ne; [by rewrite Hc1|]. intros Heq.
  assert (Hs : is_Some (game_cells (insert_seed_players (GameStateFromDb.id d)
                                      (GameStateFromDb.players d) w) !! l))
    by (rewrite Hc1, Hc; by eexists).
  pose proof (wf_game_cells _ Hwf1 l Hs). rewrite Heq in *. lia.
Qed.

Lemma fold_seed_game_keep (rest : list GameStateFromDb.t) (w : World) k ps :
  world_wf w → (∀ d, d ∈ rest → GameStateFromDb.id d ≠ k) →
  seeded_game w k ps → seeded_game (fold_left insert_seed_item rest w) k ps.
Proof.
  revert w. induction rest as [|d rest IH]; intros w Hwf Hall Hs; simpl; [done|].
  apply IH; [by apply insert_seed_item_wf | intros d' Hd'; apply Hall; by right |].
  apply insert_seed_item_game_other; [done | apply Hall; by left | done].
Qed.

Lemma fold_seed_games (data : list GameStateFromDb.t) (w : World) :
  world_wf w → NoDup (map GameStateFromDb.id data) →
  ∀ d, d ∈ data →
    seeded_game (fold_left insert_seed_item data w)
      (GameStateFromDb.id d) (GameStateFromDb.players d).
Proof.
  revert w. induction data as [|d0 rest IH]; intros w Hwf Hnd d Hd;
    [by apply elem_of_nil in Hd|].
  simpl in Hnd. apply NoDup_cons in Hnd as [Hnot Hnd]. simpl.
  apply elem_of_cons in Hd as [->|Hd].
  - apply fold_seed_game_keep; [by apply insert_seed_item_wf | | apply insert_seed_item_game].
    intros d' Hd' Heq. apply Hnot. apply list_elem_of_In. rewrite <- Heq.
    apply in_map. by apply list_elem_of_In.
  - apply IH; [by apply insert_seed_item_wf | done | done].
Qed.

(** When the seed's game ids are distinct, every seeded game can be leased
    right after initialization, the guard's members are exactly the seeded
    list, and its cached count is that list's length. *)
Theorem seeded_games_leasable (data : list GameStateFromDb.t) :
  NoDup (map GameStateFromDb.id data) →
  ∀ d, d ∈ data →
    ∃ g, StorageHandle.lock_game_state (storage_state_new data) (GameStateFromDb.id d) =
           (storage_state_new data, Some g) ∧
         LockedGameState.players (storage_state_new data) g =
           Some (GameStateFromDb.players d) ∧
         read_count (storage_state_new data) (GameStateFromDb.id d) =
           Some (usize_of_len (GameStateFromDb.players d)).
Proof.
  intros Hnd d Hd.
  destruct (fold_seed_games data empty_world empty_world_wf Hnd d Hd) as [(l & Hl & Hc) Hn].
  exists (LockedGameState.mk (GameStateFromDb.id d) l).
  unfold storage_state_new, StorageHandle.lock_game_state, LockedGameState.players in *.
  split_and!; [rewrite Hl, Hc; reflexivity | simpl; rewrite Hc; reflexivity | exact Hn].
Qed.

Lemma seeded_games_leasable_witness :
  NoDup (map GameStateFromDb.id [GameStateFromDb.mk 7 [1; 2]; GameStateFromDb.mk 8 [3]]) ∧
  ∃ g, StorageHandle.lock_game_state
         (storage_state_new [GameStateFromDb.mk 7 [1; 2]; GameStateFromDb.mk 8 [3]]) 8 =
       (storage_state_new [GameStateFromDb.mk 7 [1; 2]; GameStateFromDb.mk 8 [3]], Some g) ∧
       LockedGameState.players
         (storage_state_new [GameStateFromDb.mk 7 [1; 2]; GameStateFromDb.mk 8 [3]]) g = Some [3] ∧
       read_count (storage_state_new [GameStateFromDb.mk 7 [1; 2]; GameStateFromDb.mk 8 [3]]) 8 =
         Some (usize_of_len [3]).
Proof.
  assert (Hnd : NoDup (map GameStateFromDb.id [GameStateFromDb.mk 7 [1; 2]; GameStateFromDb.mk 8 [3]])).
  { simpl. apply NoDup_cons. split; [intros ?%list_elem_of_singleton; lia | apply NoDup_singleton]. }
  split; [exact Hnd|].
  apply (seeded_games_leasable [GameStateFromDb.mk 7 [1; 2]; GameStateFromDb.mk 8 [3]] Hnd
           (GameStateFromDb.mk 8 [3])). right. by left.
Defined.
